(** * redis-mod-rs: the fixed-arity shims over the Redis module API

    A shallow embedding of [redis_mod_callable.c] in its two revisions:
    the one with the integer accessor and the hash accessors, and the one
    that adds [RedisModule_Call1], [RedisModule_Call2], [RedisModule_Call3]
    and [RedisModule_CallKeys]; the functions they share are the same
    text.  Every function of the
    file is a straight-line sequence of calls into the Redis module API
    ([RedisModule_Call], [RedisModule_CallReplyType], ...), so the embedding
    is a free monad over those calls: a shim is a finite tree whose nodes
    are the API calls it makes, in program order, and whose leaves are its
    return values.  Running a tree against an arbitrary implementation of
    the API yields the return value together with the log of every API call
    made and the answer it got; the theorems quantify over all
    implementations. *)

From Stdlib Require Import ZArith Ascii String List Bool Lia.
From ExtLib Require Import Structures.Monad.
Import ListNotations.
Import MonadNotation.
Local Open Scope string_scope.
Local Open Scope monad_scope.
Local Open Scope Z_scope.

Set Implicit Arguments.

(** ** Values crossing the boundary *)

(** [RedisModuleCtx *], [RedisModuleCallReply *], [RedisModuleKey *] and
    [RedisModuleString *] are opaque handles: only their address matters
    to this file. *)
Definition ptr := Z.

Definition NULL : ptr := 0.

(** [const char *] arguments are NUL-terminated strings; the shims never
    read them, they only hand them on. *)
Definition cstr := string.

(** [long long], the type of an integer reply. *)
Definition long_long_min : Z := - 2 ^ 63.
Definition long_long_max : Z := 2 ^ 63 - 1.

Definition is_long_long (z : Z) : bool :=
  (long_long_min <=? z) && (z <=? long_long_max).

(** The automatic variables whose address is handed to the API. *)
Inductive lvar := oldval.

Definition lvar_eqb (a b : lvar) : bool :=
  match a, b with oldval, oldval => true end.

(** One actual argument in the variadic tail of [RedisModule_Call],
    [RedisModule_HashGet] or [RedisModule_HashSet]. *)
Inductive vararg :=
| VCStr (s : cstr)          (* a [const char *] *)
| VRString (p : ptr)        (* a [RedisModuleString *] *)
| VOut (x : lvar)           (* [&x], a [RedisModuleString **] *)
| VNull.                    (* the terminating [NULL] *)

(** What the API stored through the out-pointers it was given. *)
Definition stores := list (lvar * ptr).

(** The value of [x] after the stores [st], starting from an
    uninitialised variable: [None] is the indeterminate value. *)
Fixpoint load (st : stores) (x : lvar) : option ptr :=
  match st with
  | [] => None
  | (y, p) :: st' =>
      match load st' x with
      | Some q => Some q
      | None => if lvar_eqb x y then Some p else None
      end
  end.

(** ** The constants of [redismodule.h]

    The header is not part of this file; the shims are verified for every
    value of the constants they name. *)
Class redismodule_h := {
  REDISMODULE_OK : Z;
  REDISMODULE_HASH_NONE : Z;
  REDISMODULE_REPLY_INTEGER : Z
}.

(** The values these constants have in the Redis module SDK. *)
Definition redis_sdk : redismodule_h :=
  {| REDISMODULE_OK := 0;
     REDISMODULE_HASH_NONE := 0;
     REDISMODULE_REPLY_INTEGER := 2 |}.

(** ** The module API as a signature of calls *)

(** A call into the API, indexed by the type of what it gives back. *)
Inductive redisE : Type -> Type :=
| RedisModule_Call (ctx : ptr) (cmdname : cstr) (fmt : cstr)
    (args : list vararg) : redisE ptr
| RedisModule_CallReplyType (reply : ptr) : redisE Z
| RedisModule_CallReplyInteger (reply : ptr) : redisE Z
| RedisModule_FreeCallReply (reply : ptr) : redisE unit
| RedisModule_HashGet (key : ptr) (flags : Z)
    (args : list vararg) : redisE (Z * stores)
| RedisModule_HashSet (key : ptr) (flags : Z)
    (args : list vararg) : redisE Z.

(** Programs over the API.  The shims have no loops, so the trees are
    finite. *)
Inductive prog (R : Type) : Type :=
| Ret (r : R)
| Vis (X : Type) (e : redisE X) (k : X -> prog R).

Arguments Ret {R} r.
Arguments Vis {R X} e k.

Fixpoint pbind {A B : Type} (p : prog A) (f : A -> prog B) : prog B :=
  match p with
  | Ret a => f a
  | Vis e k => Vis e (fun x => pbind (k x) f)
  end.

#[export] Instance Monad_prog : Monad prog :=
  {| ret := @Ret; bind := @pbind |}.

(** Performing one API call. *)
Definition call {X : Type} (e : redisE X) : prog X := Vis e Ret.

(** ** Running a program *)

(** An implementation of the API over a server state [W]. *)
Definition handler (W : Type) : Type := forall X : Type, redisE X -> W -> X * W.

(** One line of the log: the call and its answer. *)
Inductive entry : Type :=
| Entry (X : Type) (e : redisE X) (x : X).

Arguments Entry {X} e x.

Record outcome (R W : Type) : Type := {
  result : R;
  world : W;
  trace : list entry
}.

Fixpoint run {R W : Type} (h : handler W) (p : prog R) (w : W) : outcome R W :=
  match p with
  | Ret r => {| result := r; world := w; trace := [] |}
  | Vis e k =>
      let (x, w') := h _ e w in
      let o := run h (k x) w' in
      {| result := result o; world := world o;
         trace := Entry e x :: trace o |}
  end.

(** ** The shims *)

Section Shims.

Context {hdr : redismodule_h}.

Definition RedisModule_Callable2 (ctx : ptr) (cmdname key arg0 : cstr)
  : prog ptr :=
  call (RedisModule_Call ctx cmdname "cc" [VCStr key; VCStr arg0]).

Definition RedisModule_Call1 (ctx : ptr) (cmdname key : cstr) : prog ptr :=
  call (RedisModule_Call ctx cmdname "c" [VCStr key]).

Definition RedisModule_Call2 (ctx : ptr) (cmdname key arg0 : cstr)
  : prog ptr :=
  call (RedisModule_Call ctx cmdname "cc" [VCStr key; VCStr arg0]).

Definition RedisModule_Call3 (ctx : ptr) (cmdname key arg0 arg1 : cstr)
  : prog ptr :=
  call (RedisModule_Call ctx cmdname "ccc" [VCStr key; VCStr arg0; VCStr arg1]).

Definition RedisModule_CallKeys (ctx : ptr) (arg0 : cstr) : prog ptr :=
  call (RedisModule_Call ctx "keys" "c" [VCStr arg0]).

(** The assignments [resp = NULL] after each [RedisModule_FreeCallReply]
    are dead stores to a local that is never read again. *)
Definition RedisModuleCallable2_ReplyInteger
    (ctx : ptr) (cmdname key arg0 : cstr) : prog Z :=
  resp <- RedisModule_Callable2 ctx cmdname key arg0 ;;
  ty <- call (RedisModule_CallReplyType resp) ;;
  if negb (ty =? REDISMODULE_REPLY_INTEGER) then
    call (RedisModule_FreeCallReply resp) ;;
    ret (-1)
  else
    reply_int <- call (RedisModule_CallReplyInteger resp) ;;
    call (RedisModule_FreeCallReply resp) ;;
    ret reply_int.

(** [oldval] is declared without an initialiser; the function returns
    whatever it holds after the call, [None] when nothing was stored. *)
Definition RedisModuleHash_Get (key field : ptr) : prog (option ptr) :=
  r <- call (RedisModule_HashGet key REDISMODULE_HASH_NONE
               [VRString field; VOut oldval; VNull]) ;;
  ret (load (snd r) oldval).

Definition RedisModuleHash_Set (key field val : ptr) : prog Z :=
  call (RedisModule_HashSet key REDISMODULE_HASH_NONE
          [VRString field; VRString val; VNull]) ;;
  ret REDISMODULE_OK.

End Shims.

(** ** Reading the log *)

(** The reply handles [RedisModule_Call] gave back, in order. *)
Definition entry_call_reply (en : entry) : list ptr :=
  match en with
  | Entry e x =>
      match e in redisE X return X -> list ptr with
      | RedisModule_Call _ _ _ _ => fun r => [r]
      | _ => fun _ => []
      end x
  end.

Definition call_replies (t : list entry) : list ptr :=
  flat_map entry_call_reply t.

(** The type tags [RedisModule_CallReplyType] reported, with the handle
    each was asked for. *)
Definition entry_reply_type (en : entry) : list (ptr * Z) :=
  match en with
  | Entry e x =>
      match e in redisE X return X -> list (ptr * Z) with
      | RedisModule_CallReplyType r => fun ty => [(r, ty)]
      | _ => fun _ => []
      end x
  end.

Definition reply_types (t : list entry) : list (ptr * Z) :=
  flat_map entry_reply_type t.

(** The payloads [RedisModule_CallReplyInteger] reported. *)
Definition entry_reply_integer (en : entry) : list (ptr * Z) :=
  match en with
  | Entry e x =>
      match e in redisE X return X -> list (ptr * Z) with
      | RedisModule_CallReplyInteger r => fun v => [(r, v)]
      | _ => fun _ => []
      end x
  end.

Definition reply_integers (t : list entry) : list (ptr * Z) :=
  flat_map entry_reply_integer t.

(** The handles passed to [RedisModule_FreeCallReply], in order. *)
Definition entry_free (en : entry) : list ptr :=
  match en with
  | Entry (RedisModule_FreeCallReply r) _ => [r]
  | Entry _ _ => []
  end.

Definition frees (t : list entry) : list ptr := flat_map entry_free t.

(** The handles the API was asked to look into or to release. *)
Definition entry_reply_use (en : entry) : list ptr :=
  match en with
  | Entry (RedisModule_CallReplyType r) _ => [r]
  | Entry (RedisModule_CallReplyInteger r) _ => [r]
  | Entry (RedisModule_FreeCallReply r) _ => [r]
  | Entry _ _ => []
  end.

Definition reply_uses (t : list entry) : list ptr :=
  flat_map entry_reply_use t.

(** No reply-consuming call was handed [NULL]. *)
Definition no_null_use (t : list entry) : bool :=
  forallb (fun r => negb (r =? NULL)) (reply_uses t).

(** What [RedisModule_Call] was invoked with. *)
Record call_args := {
  ca_ctx : ptr;
  ca_cmdname : cstr;
  ca_fmt : cstr;
  ca_args : list vararg
}.

Definition entry_call (en : entry) : list call_args :=
  match en with
  | Entry (RedisModule_Call c n f a) _ =>
      [{| ca_ctx := c; ca_cmdname := n; ca_fmt := f; ca_args := a |}]
  | Entry _ _ => []
  end.

Definition calls (t : list entry) : list call_args := flat_map entry_call t.

(** What the hash primitives were invoked with. *)
Record hash_args := {
  ha_set : bool;
  ha_key : ptr;
  ha_flags : Z;
  ha_args : list vararg
}.

Definition entry_hash (en : entry) : list hash_args :=
  match en with
  | Entry (RedisModule_HashGet k f a) _ =>
      [{| ha_set := false; ha_key := k; ha_flags := f; ha_args := a |}]
  | Entry (RedisModule_HashSet k f a) _ =>
      [{| ha_set := true; ha_key := k; ha_flags := f; ha_args := a |}]
  | Entry _ _ => []
  end.

Definition hash_calls (t : list entry) : list hash_args :=
  flat_map entry_hash t.

(** The answers the hash primitives gave: the status of each, and for
    [RedisModule_HashGet] what it stored. *)
Definition entry_hash_answer (en : entry) : list (Z * stores) :=
  match en with
  | Entry e x =>
      match e in redisE X return X -> list (Z * stores) with
      | RedisModule_HashGet _ _ _ => fun a => [a]
      | RedisModule_HashSet _ _ _ => fun s => [(s, [])]
      | _ => fun _ => []
      end x
  end.

Definition hash_answers (t : list entry) : list (Z * stores) :=
  flat_map entry_hash_answer t.

(** Whether an argument in field position ends the list: the primitive
    reads a [RedisModuleString *] there and stops at a null one, be it
    the literal [NULL] or a null field handed on by the caller. *)
Definition ends_fields (a : vararg) : bool :=
  match a with
  | VNull => true
  | VRString p => p =? NULL
  | VCStr _ => false
  | VOut _ => false
  end.

(** The field/value pairs of a variadic tail under the default flags:
    pairs are read until the first null pointer in field position;
    [None] when the tail is not terminated or stops in the middle of a
    pair. *)
Fixpoint hash_fields (args : list vararg) : option (list (vararg * vararg)) :=
  match args with
  | [] => None
  | f :: rest =>
      if ends_fields f then Some []
      else
        match rest with
        | [] => None
        | v :: rest' =>
            match hash_fields rest' with
            | Some l => Some ((f, v) :: l)
            | None => None
            end
        end
  end.

(** The number of tokens of a format descriptor, and whether they all
    are ['c'] (a C string follows). *)
Fixpoint all_c (fmt : string) : bool :=
  match fmt with
  | EmptyString => true
  | String a rest => Ascii.eqb a "c"%char && all_c rest
  end.

Definition is_cstr (a : vararg) : bool :=
  match a with VCStr _ => true | _ => false end.

(** [n] tokens ['c']. *)
Fixpoint c_tokens (n : nat) : string :=
  match n with
  | O => EmptyString
  | S n' => String "c"%char (c_tokens n')
  end.

(** The call a shim is expected to make for the string arguments [strs]:
    one ['c'] per argument, the arguments in the order received. *)
Definition forwarded (ctx : ptr) (cmdname : cstr) (strs : list cstr)
  : call_args :=
  {| ca_ctx := ctx; ca_cmdname := cmdname;
     ca_fmt := c_tokens (length strs); ca_args := map VCStr strs |}.

(** ** The signatures of the command-invoking shims *)

(** A C function whose remaining parameters are [n] [const char *]. *)
Fixpoint cfun (n : nat) (R : Type) : Type :=
  match n with
  | O => R
  | S n' => cstr -> cfun n' R
  end.

(** Calling it with a list of actual arguments: [None] when the list
    has not exactly [n] elements. *)
Fixpoint apply_cstrs {R : Type} (n : nat) : cfun n R -> list cstr -> option R :=
  match n with
  | O => fun f l => match l with [] => Some f | _ :: _ => None end
  | S n' => fun f l =>
      match l with
      | [] => None
      | s :: l' => apply_cstrs n' (f s) l'
      end
  end.

Inductive shim :=
| Call1 | Call2 | Call3 | CallKeys | Callable2 | Callable2_ReplyInteger.

(** Whether the function has a [cmdname] parameter. *)
Definition takes_cmdname (s : shim) : bool :=
  match s with
  | CallKeys => false
  | _ => true
  end.

(** The number of [const char *] parameters after [ctx] and [cmdname]. *)
Definition string_args (s : shim) : nat :=
  match s with
  | Call1 => 1
  | Call2 => 2
  | Call3 => 3
  | CallKeys => 1
  | Callable2 => 2
  | Callable2_ReplyInteger => 2
  end.

(** [RedisModuleCallReply *] for all but the integer accessor, which
    returns [long long]. *)
Definition shim_ret (s : shim) : Type :=
  match s with
  | Callable2_ReplyInteger => Z
  | _ => ptr
  end.

Definition shim_type (s : shim) : Type :=
  ptr ->
  if takes_cmdname s
  then cstr -> cfun (string_args s) (prog (shim_ret s))
  else cfun (string_args s) (prog (shim_ret s)).

Section Signatures.

Context {hdr : redismodule_h}.

(** The table is checked against the definitions by typing: an entry
    with another parameter count is ill-typed. *)
Definition shim_fun (s : shim) : shim_type s :=
  match s with
  | Call1 => RedisModule_Call1
  | Call2 => RedisModule_Call2
  | Call3 => RedisModule_Call3
  | CallKeys => RedisModule_CallKeys
  | Callable2 => RedisModule_Callable2
  | Callable2_ReplyInteger => RedisModuleCallable2_ReplyInteger
  end.

(** A call site: a context, a command name where the function takes one,
    and the string arguments.  [None] when the call does not fit the
    function's prototype. *)
Definition invoke (s : shim) (ctx : ptr) (cmdname : option cstr)
    (strs : list cstr) : option (prog (shim_ret s)) :=
  (if takes_cmdname s as b
      return (ptr -> if b
                     then cstr -> cfun (string_args s) (prog (shim_ret s))
                     else cfun (string_args s) (prog (shim_ret s)))
             -> option (prog (shim_ret s))
   then fun f =>
          match cmdname with
          | Some n => apply_cstrs (string_args s) (f ctx n) strs
          | None => None
          end
   else fun f =>
          match cmdname with
          | Some _ => None
          | None => apply_cstrs (string_args s) (f ctx) strs
          end) (shim_fun s).

End Signatures.

(** ** A scripted server

    The simplest implementation of the API: it answers every call from a
    script and keeps the set of replies it has handed out and not yet
    seen released. *)
Record server := {
  sv_reply : ptr;
  sv_type : Z;
  sv_integer : Z;
  sv_live : list ptr;
  sv_hash_status : Z;
  sv_hash_stores : stores
}.

Definition set_live (w : server) (l : list ptr) : server :=
  {| sv_reply := sv_reply w; sv_type := sv_type w;
     sv_integer := sv_integer w; sv_live := l;
     sv_hash_status := sv_hash_status w;
     sv_hash_stores := sv_hash_stores w |}.

Fixpoint release (r : ptr) (l : list ptr) : list ptr :=
  match l with
  | [] => []
  | x :: l' => if x =? r then l' else x :: release r l'
  end.

Definition serve : handler server :=
  fun X e =>
    match e in redisE X return server -> X * server with
    | RedisModule_Call _ _ _ _ =>
        fun w => (sv_reply w, set_live w (sv_reply w :: sv_live w))
    | RedisModule_CallReplyType _ => fun w => (sv_type w, w)
    | RedisModule_CallReplyInteger _ => fun w => (sv_integer w, w)
    | RedisModule_FreeCallReply r =>
        fun w => (tt, set_live w (release r (sv_live w)))
    | RedisModule_HashGet _ _ _ =>
        fun w => ((sv_hash_status w, sv_hash_stores w), w)
    | RedisModule_HashSet _ _ _ => fun w => (sv_hash_status w, w)
    end.

(** A server about to answer with a reply at address [r], of type [ty]
    and integer payload [v]. *)
Definition replying (r : ptr) (ty v : Z) : server :=
  {| sv_reply := r; sv_type := ty; sv_integer := v; sv_live := [];
     sv_hash_status := 0; sv_hash_stores := [] |}.

(** A server whose hash primitives answer with status [s] and store
    [st]. *)
Definition hashing (s : Z) (st : stores) : server :=
  {| sv_reply := NULL; sv_type := 0; sv_integer := 0; sv_live := [];
     sv_hash_status := s; sv_hash_stores := st |}.

(** ** The replies a run holds

    Reading the log as an account of ownership: [RedisModule_Call] hands
    its answer to the caller, [RedisModule_FreeCallReply] gives its
    argument back.  [None] as soon as a reply is looked into or released
    that is not held at that point (a use after release, a second
    release, a handle the run never obtained). *)
Definition held_in (r : ptr) (held : list ptr) : bool :=
  existsb (Z.eqb r) held.

Definition entry_hold (en : entry) (held : list ptr) : option (list ptr) :=
  match en with
  | Entry e x =>
      match e in redisE X return X -> option (list ptr) with
      | RedisModule_Call _ _ _ _ => fun r => Some (r :: held)
      | RedisModule_CallReplyType r =>
          fun _ => if held_in r held then Some held else None
      | RedisModule_CallReplyInteger r =>
          fun _ => if held_in r held then Some held else None
      | RedisModule_FreeCallReply r =>
          fun _ => if held_in r held then Some (release r held) else None
      | RedisModule_HashGet _ _ _ => fun _ => Some held
      | RedisModule_HashSet _ _ _ => fun _ => Some held
      end x
  end.

Fixpoint holdings (t : list entry) (held : list ptr) : option (list ptr) :=
  match t with
  | [] => Some held
  | en :: t' =>
      match entry_hold en held with
      | Some held' => holdings t' held'
      | None => None
      end
  end.

(** ** What a run of each shim looks like *)

(** Name the answer of the next API call in the goal. *)
Ltac answer h :=
  match goal with
  | |- context [h ?X ?e ?w] =>
      let x := fresh "x" in
      let w' := fresh "w" in
      destruct (h X e w) as [x w']
  end.

Section Runs.

Context {hdr : redismodule_h}.
Variable W : Type.
Variable h : handler W.

(** The integer accessor makes the call, asks for the type of the reply
    and then takes one of two paths, both ending in the release of the
    reply. *)
Lemma ReplyInteger_paths (w : W) (ctx : ptr) (cmdname key arg0 : cstr) :
  exists (resp : ptr) (ty : Z),
    (ty <> REDISMODULE_REPLY_INTEGER /\
     result (run h (RedisModuleCallable2_ReplyInteger ctx cmdname key arg0) w)
       = -1 /\
     trace (run h (RedisModuleCallable2_ReplyInteger ctx cmdname key arg0) w)
       = [Entry (RedisModule_Call ctx cmdname "cc" [VCStr key; VCStr arg0])
            resp;
          Entry (RedisModule_CallReplyType resp) ty;
          Entry (RedisModule_FreeCallReply resp) tt])
    \/
    (ty = REDISMODULE_REPLY_INTEGER /\
     trace (run h (RedisModuleCallable2_ReplyInteger ctx cmdname key arg0) w)
       = [Entry (RedisModule_Call ctx cmdname "cc" [VCStr key; VCStr arg0])
            resp;
          Entry (RedisModule_CallReplyType resp) ty;
          Entry (RedisModule_CallReplyInteger resp)
            (result (run h (RedisModuleCallable2_ReplyInteger
                              ctx cmdname key arg0) w));
          Entry (RedisModule_FreeCallReply resp) tt]).
Proof.
  unfold RedisModuleCallable2_ReplyInteger, RedisModule_Callable2, call.
  simpl.
  answer h. exists x. simpl.
  answer h. exists x0.
  destruct (Z.eqb_spec x0 REDISMODULE_REPLY_INTEGER) as [Heq | Hne]; simpl.
  - right. split; [exact Heq |].
    answer h. simpl. answer h. destruct x2. reflexivity.
  - left. split; [exact Hne |].
    answer h. destruct x1. split; reflexivity.
Qed.

(** A forwarding shim makes one call and returns its answer. *)
Lemma forward_run (ctx : ptr) (cmdname fmt : cstr) (args : list vararg)
    (w : W) :
  trace (run h (call (RedisModule_Call ctx cmdname fmt args)) w)
  = [Entry (RedisModule_Call ctx cmdname fmt args)
       (result (run h (call (RedisModule_Call ctx cmdname fmt args)) w))].
Proof.
  unfold call. simpl. answer h. reflexivity.
Qed.

Lemma Hash_Get_run (key field : ptr) (w : W) :
  exists (status : Z) (st : stores),
    trace (run h (RedisModuleHash_Get key field) w)
    = [Entry (RedisModule_HashGet key REDISMODULE_HASH_NONE
                [VRString field; VOut oldval; VNull]) (status, st)]
    /\ result (run h (RedisModuleHash_Get key field) w) = load st oldval.
Proof.
  unfold RedisModuleHash_Get, call. simpl.
  answer h. destruct x as [status st]. exists status, st.
  split; reflexivity.
Qed.

Lemma Hash_Set_run (key field val : ptr) (w : W) :
  exists status : Z,
    trace (run h (RedisModuleHash_Set key field val) w)
    = [Entry (RedisModule_HashSet key REDISMODULE_HASH_NONE
                [VRString field; VRString val; VNull]) status]
    /\ result (run h (RedisModuleHash_Set key field val) w) = REDISMODULE_OK.
Proof.
  unfold RedisModuleHash_Set, call. simpl.
  answer h. exists x. split; reflexivity.
Qed.

End Runs.

(** Only a list of the right length fits a prototype. *)
Lemma apply_cstrs_length (R : Type) (n : nat) :
  forall (f : cfun n R) (l : list cstr) (r : R),
    apply_cstrs n f l = Some r -> length l = n.
Proof.
  induction n as [| n IH]; intros f l r; destruct l as [| s l]; simpl;
    try discriminate.
  - reflexivity.
  - intros Hr. f_equal. exact (IH (f s) l r Hr).
Qed.

Lemma apply_cstrs_fits (R : Type) (n : nat) :
  forall (f : cfun n R) (l : list cstr),
    length l = n -> apply_cstrs n f l <> None.
Proof.
  induction n as [| n IH]; intros f l; destruct l as [| s l]; simpl;
    try discriminate.
  intros Hl. apply IH. congruence.
Qed.

(** Conversely, a call with a command name where the function takes one
    and the right number of strings fits. *)
Lemma invoke_fits {hdr : redismodule_h} (s : shim) (ctx : ptr)
    (cmdname : cstr) (strs : list cstr) :
  length strs = string_args s ->
  invoke s ctx (if takes_cmdname s then Some cmdname else None) strs <> None.
Proof.
  intros Hl. unfold invoke.
  destruct s; cbv beta iota delta [takes_cmdname];
    apply apply_cstrs_fits; exact Hl.
Qed.

(** On the scripted server the accessor leaves the set of live replies
    as it found it. *)
Lemma ReplyInteger_serve_no_leak {hdr : redismodule_h} (w : server)
    (ctx : ptr) (cmdname key arg0 : cstr) :
  sv_live
    (world (run serve (RedisModuleCallable2_ReplyInteger ctx cmdname key arg0)
              w))
  = sv_live w.
Proof.
  unfold RedisModuleCallable2_ReplyInteger, RedisModule_Callable2, call.
  simpl.
  destruct (negb (sv_type w =? REDISMODULE_REPLY_INTEGER)); simpl;
    rewrite Z.eqb_refl; reflexivity.
Qed.

(** The payload stays a [long long]: the accessor does no arithmetic. *)
Lemma ReplyInteger_long_long {hdr : redismodule_h} (W : Type)
    (h : handler W) (w : W) (ctx : ptr) (cmdname key arg0 : cstr) :
  forallb (fun rv => is_long_long (snd rv))
    (reply_integers
       (trace (run h (RedisModuleCallable2_ReplyInteger ctx cmdname key arg0)
                 w))) = true ->
  is_long_long
    (result (run h (RedisModuleCallable2_ReplyInteger ctx cmdname key arg0) w))
  = true.
Proof.
  destruct (ReplyInteger_paths h w ctx cmdname key arg0)
    as (resp & ty & [(_ & Hres & _) | (_ & Htr)]).
  - intros _. rewrite Hres. reflexivity.
  - rewrite Htr. simpl. rewrite andb_true_r. intros Hv; exact Hv.
Qed.

(** ** The integer accessor *)





(** C8.  A call answered with a reply of integer type whose payload is -1
    makes the accessor return -1, the very value it returns for a reply
    that is not an integer: the two runs cannot be told apart by their
    results. *)
Theorem ReplyInteger_sentinel_ambiguous {hdr : redismodule_h}
    (W W' : Type) (h : handler W) (h' : handler W') (w : W) (w' : W')
    (ctx ctx' : ptr) (cmdname key arg0 cmdname' key' arg0' : cstr)
    (resp resp' : ptr) (ty' : Z) :
  let o := run h (RedisModuleCallable2_ReplyInteger ctx cmdname key arg0) w in
  let o' :=
    run h' (RedisModuleCallable2_ReplyInteger ctx' cmdname' key' arg0') w' in
  In (resp, REDISMODULE_REPLY_INTEGER) (reply_types (trace o)) ->
  In (resp, -1) (reply_integers (trace o)) ->
  In (resp', ty') (reply_types (trace o')) ->
  ty' <> REDISMODULE_REPLY_INTEGER ->
  result o = -1 /\ result o' = -1 /\ result o = result o'.
Proof.
  intros o o'.
  pose proof (ReplyInteger_paths h w ctx cmdname key arg0) as P.
  pose proof (ReplyInteger_paths h' w' ctx' cmdname' key' arg0') as P'.
  fold o in P. fold o' in P'. clearbody o o'.
  destruct P as (r & t & [(Hne & Hres & Htr) | (Heq & Htr)]);
    destruct P' as (r' & t' & [(Hne' & Hres' & Htr') | (Heq' & Htr')]);
    rewrite Htr, Htr'; simpl; intros Ht Hv Ht' Hty'.
  - destruct Hv.
  - destruct Hv.
  - destruct Hv as [Hv | []]. injection Hv as _ Hv.
    rewrite Hres', Hv. repeat split.
  - destruct Ht' as [Ht' | []]. exfalso. apply Hty'. congruence.
Qed.

Lemma ReplyInteger_sentinel_ambiguous_witness :
  let o := run serve
             (@RedisModuleCallable2_ReplyInteger redis_sdk 1 "decr" "k" "a")
             (replying 77 2 (-1)) in
  let o' := run serve
              (@RedisModuleCallable2_ReplyInteger redis_sdk 1 "get" "k" "a")
              (replying 78 3 0) in
  result o = -1 /\ result o' = -1 /\ result o = result o'.
Proof.
  apply (@ReplyInteger_sentinel_ambiguous redis_sdk server server serve serve
           (replying 77 2 (-1)) (replying 78 3 0)
           1 1 "decr" "k" "a" "get" "k" "a" 77 78 3).
  - simpl. left. reflexivity.
  - simpl. left. reflexivity.
  - simpl. left. reflexivity.
  - simpl. discriminate.
Defined.

(** C9.  The accessor hands the reply to [RedisModule_CallReplyType] and
    to [RedisModule_FreeCallReply] whatever its address, with no test
    against [NULL] in between; so no reply-consuming call receives
    [NULL] exactly when [RedisModule_Call] gave back a reply other than
    [NULL]. *)
Theorem ReplyInteger_null_reply {hdr : redismodule_h} (W : Type)
    (h : handler W) (w : W) (ctx : ptr) (cmdname key arg0 : cstr) :
  let o := run h (RedisModuleCallable2_ReplyInteger ctx cmdname key arg0) w in
  exists resp : ptr,
    call_replies (trace o) = [resp] /\
    In resp (map fst (reply_types (trace o))) /\
    In resp (frees (trace o)) /\
    (forall r : ptr, In r (reply_uses (trace o)) -> r = resp) /\
    (no_null_use (trace o) = true <-> resp <> NULL).
Proof.
  intros o. subst o.
  assert (Hnull : forall r b,
             negb (r =? NULL) && b = true -> r <> NULL).
  { intros r b Hb. apply andb_true_iff in Hb. destruct Hb as [Hb _].
    apply negb_true_iff in Hb. apply Z.eqb_neq. exact Hb. }
  destruct (ReplyInteger_paths h w ctx cmdname key arg0)
    as (r & t & [(Hne & Hres & Htr) | (Heq & Htr)]);
    exists r; rewrite Htr; unfold no_null_use; simpl;
    (split; [reflexivity |]);
    (split; [left; reflexivity |]);
    (split; [left; reflexivity |]);
    (split; [intros r0 Hin; intuition congruence |]);
    (split; [apply Hnull |]);
    intros Hr; apply Z.eqb_neq in Hr; rewrite Hr; reflexivity.
Qed.

(** ** The forwarding shims *)

(** C3.  Each of [RedisModule_Call1], [RedisModule_Call2],
    [RedisModule_Call3], [RedisModule_CallKeys] and
    [RedisModule_Callable2] makes one call to [RedisModule_Call], whose
    format descriptor has one ['c'] per string argument forwarded and
    whose variadic tail is those strings in the order the shim received
    them. *)
Theorem forwarding_format_and_order (W : Type) (h : handler W) (w : W)
    (ctx : ptr) (cmdname key arg0 arg1 : cstr) :
  calls (trace (run h (RedisModule_Call1 ctx cmdname key) w))
    = [forwarded ctx cmdname [key]] /\
  calls (trace (run h (RedisModule_Call2 ctx cmdname key arg0) w))
    = [forwarded ctx cmdname [key; arg0]] /\
  calls (trace (run h (RedisModule_Call3 ctx cmdname key arg0 arg1) w))
    = [forwarded ctx cmdname [key; arg0; arg1]] /\
  calls (trace (run h (RedisModule_CallKeys ctx arg0) w))
    = [forwarded ctx "keys" [arg0]] /\
  calls (trace (run h (RedisModule_Callable2 ctx cmdname key arg0) w))
    = [forwarded ctx cmdname [key; arg0]] /\
  forall (strs : list cstr),
    all_c (ca_fmt (forwarded ctx cmdname strs)) = true /\
    String.length (ca_fmt (forwarded ctx cmdname strs)) = length strs /\
    forallb is_cstr (ca_args (forwarded ctx cmdname strs)) = true.
Proof.
  unfold RedisModule_Call1, RedisModule_Call2, RedisModule_Call3,
    RedisModule_CallKeys, RedisModule_Callable2.
  repeat (split; [rewrite forward_run; reflexivity |]).
  intros strs. unfold forwarded. simpl.
  induction strs as [| s strs (IHc & IHl & IHa)]; simpl.
  - repeat split.
  - rewrite IHc, IHl, IHa. repeat split.
Qed.

(** C6.  [RedisModule_CallKeys] makes one call to [RedisModule_Call],
    with the command name ["keys"], the descriptor ["c"] and the pattern
    it was given as the only argument, and returns its answer. *)
Theorem CallKeys_fixed_command (W : Type) (h : handler W) (w : W)
    (ctx : ptr) (arg0 : cstr) :
  trace (run h (RedisModule_CallKeys ctx arg0) w)
  = [Entry (RedisModule_Call ctx "keys" "c" [VCStr arg0])
       (result (run h (RedisModule_CallKeys ctx arg0) w))].
Proof.
  unfold RedisModule_CallKeys. apply forward_run.
Qed.

(** C4, as the code has it.  [RedisModule_Call1], [RedisModule_Call2],
    [RedisModule_Call3] and [RedisModule_CallKeys] make one API call and
    return the reply handle it produced, whatever it is, without a second
    call that would look into it.  [RedisModuleHash_Get] returns what
    [RedisModule_HashGet] stored through [&oldval] and drops its status;
    [RedisModuleHash_Set] drops the status of [RedisModule_HashSet] and
    returns [REDISMODULE_OK]. *)
Theorem results_propagated {hdr : redismodule_h} (W : Type) (h : handler W)
    (w : W) (ctx : ptr) (cmdname key arg0 arg1 : cstr) (k f v : ptr) :
  (let o := run h (RedisModule_Call1 ctx cmdname key) w in
   trace o = [Entry (RedisModule_Call ctx cmdname "c" [VCStr key])
                (result o)]) /\
  (let o := run h (RedisModule_Call2 ctx cmdname key arg0) w in
   trace o = [Entry (RedisModule_Call ctx cmdname "cc"
                       [VCStr key; VCStr arg0]) (result o)]) /\
  (let o := run h (RedisModule_Call3 ctx cmdname key arg0 arg1) w in
   trace o = [Entry (RedisModule_Call ctx cmdname "ccc"
                       [VCStr key; VCStr arg0; VCStr arg1]) (result o)]) /\
  (let o := run h (RedisModule_CallKeys ctx arg0) w in
   trace o = [Entry (RedisModule_Call ctx "keys" "c" [VCStr arg0])
                (result o)]) /\
  (let o := run h (RedisModuleHash_Get k f) w in
   exists (status : Z) (st : stores),
     hash_answers (trace o) = [(status, st)] /\
     length (trace o) = 1%nat /\
     result o = load st oldval) /\
  (let o := run h (RedisModuleHash_Set k f v) w in
   exists status : Z,
     hash_answers (trace o) = [(status, [])] /\
     length (trace o) = 1%nat /\
     result o = REDISMODULE_OK).
Proof.
  repeat (split; [apply forward_run |]).
  split.
  - destruct (Hash_Get_run h k f w) as (status & st & Htr & Hres).
    exists status, st. cbv zeta. rewrite Htr, Hres. repeat split.
  - destruct (Hash_Set_run h k f v w) as (status & Htr & Hres).
    exists status. cbv zeta. rewrite Htr, Hres. repeat split.
Qed.

(** C4 as stated fails for [RedisModuleHash_Set]: when
    [RedisModule_HashSet] answers 1 ([REDISMODULE_ERR] in the SDK), the
    shim still returns 0 ([REDISMODULE_OK]). *)
Lemma Hash_Set_drops_status :
  let o := run serve (@RedisModuleHash_Set redis_sdk 10 20 30)
             (hashing 1 []) in
  hash_answers (trace o) = [(1, [])] /\ result o = 0 /\
  ~ hash_answers (trace o) = [(result o, [])].
Proof.
  simpl. repeat split. discriminate.
Qed.

(** C5, as the code has it.  [RedisModuleHash_Get] and
    [RedisModuleHash_Set] make one call to the hash primitive, on the key
    they were given, with the flags [REDISMODULE_HASH_NONE] and a
    variadic tail that holds the field they were given, then the
    out-pointer (for get) or the value they were given (for set), then
    the terminating [NULL].  The primitive reads that tail as exactly one
    field when the field is not [NULL], and as no field when it is. *)
Theorem hash_one_field_unless_null {hdr : redismodule_h} (W : Type)
    (h : handler W) (w : W) (key field val : ptr) :
  (let o := run h (RedisModuleHash_Get key field) w in
   hash_calls (trace o)
   = [{| ha_set := false; ha_key := key;
         ha_flags := REDISMODULE_HASH_NONE;
         ha_args := [VRString field; VOut oldval; VNull] |}] /\
   length (trace o) = 1%nat /\
   (field <> NULL ->
    map (fun c => hash_fields (ha_args c)) (hash_calls (trace o))
    = [Some [(VRString field, VOut oldval)]]) /\
   (field = NULL ->
    map (fun c => hash_fields (ha_args c)) (hash_calls (trace o))
    = [Some []])) /\
  (let o := run h (RedisModuleHash_Set key field val) w in
   hash_calls (trace o)
   = [{| ha_set := true; ha_key := key;
         ha_flags := REDISMODULE_HASH_NONE;
         ha_args := [VRString field; VRString val; VNull] |}] /\
   length (trace o) = 1%nat /\
   (field <> NULL ->
    map (fun c => hash_fields (ha_args c)) (hash_calls (trace o))
    = [Some [(VRString field, VRString val)]]) /\
   (field = NULL ->
    map (fun c => hash_fields (ha_args c)) (hash_calls (trace o))
    = [Some []])).
Proof.
  split; cbv zeta.
  - destruct (Hash_Get_run h key field w) as (status & st & Htr & _).
    rewrite Htr. simpl.
    destruct (Z.eqb_spec field NULL) as [Hnull | Hfield];
      repeat split; intros Hf; try reflexivity; contradiction.
  - destruct (Hash_Set_run h key field val w) as (status & Htr & _).
    rewrite Htr. simpl.
    destruct (Z.eqb_spec field NULL) as [Hnull | Hfield];
      repeat split; intros Hf; try reflexivity; contradiction.
Qed.

Lemma hash_one_field_unless_null_witness :
  (let o := run serve (@RedisModuleHash_Get redis_sdk 10 20) (hashing 0 []) in
   map (fun c => hash_fields (ha_args c)) (hash_calls (trace o))
   = [Some [(VRString 20, VOut oldval)]]) /\
  (let o := run serve (@RedisModuleHash_Set redis_sdk 10 20 30)
              (hashing 0 []) in
   map (fun c => hash_fields (ha_args c)) (hash_calls (trace o))
   = [Some [(VRString 20, VRString 30)]]).
Proof.
  destruct (@hash_one_field_unless_null redis_sdk server serve (hashing 0 [])
              10 20 30)
    as [(_ & _ & Hget & _) (_ & _ & Hset & _)].
  split.
  - apply Hget. unfold NULL. lia.
  - apply Hset. unfold NULL. lia.
Defined.

(** C5 as stated fails for a [NULL] field: the tail the shims pass then
    starts with a null pointer, which the primitive reads as the end of
    the list, so no field is accessed. *)
Lemma null_field_accesses_no_field :
  (let o := run serve (@RedisModuleHash_Get redis_sdk 10 NULL)
              (hashing 0 []) in
   hash_calls (trace o)
   = [{| ha_set := false; ha_key := 10; ha_flags := 0;
         ha_args := [VRString NULL; VOut oldval; VNull] |}] /\
   map (fun c => hash_fields (ha_args c)) (hash_calls (trace o))
   = [Some []]) /\
  (let o := run serve (@RedisModuleHash_Set redis_sdk 10 NULL 30)
              (hashing 0 []) in
   hash_calls (trace o)
   = [{| ha_set := true; ha_key := 10; ha_flags := 0;
         ha_args := [VRString NULL; VRString 30; VNull] |}] /\
   map (fun c => hash_fields (ha_args c)) (hash_calls (trace o))
   = [Some []]).
Proof.
  repeat split.
Qed.



(** ** Prototypes *)

(** C7, as the code has it.  A call fits the prototype of a
    command-invoking shim only with as many strings after the context
    and the command name as the prototype has, and that number lies
    between 1 and 3. *)
Theorem string_arguments_1_to_3 {hdr : redismodule_h} (s : shim)
    (ctx : ptr) (cmdname : option cstr) (strs : list cstr) :
  invoke s ctx cmdname strs <> None ->
  length strs = string_args s /\ (1 <= length strs <= 3)%nat.
Proof.
  unfold invoke.
  destruct s, cmdname as [n |]; simpl; intros Hfit;
    try (exfalso; apply Hfit; reflexivity);
    destruct strs as [| a [| b [| c [| d l]]]];
    try (exfalso; apply Hfit; reflexivity);
    simpl; split; try reflexivity; lia.
Qed.

Lemma string_arguments_1_to_3_witness :
  length ["k"; "f"] = string_args Call2 /\ (1 <= length ["k"; "f"] <= 3)%nat.
Proof.
  apply (@string_arguments_1_to_3 redis_sdk Call2 1 (Some "hget") ["k"; "f"]).
  simpl. discriminate.
Defined.

(** C7 as stated fails for [RedisModule_Call3], which takes three
    strings after the context and the command name. *)
Lemma Call3_takes_three_strings :
  @invoke redis_sdk Call3 1 (Some "hset") ["k"; "f"; "v"]
  = Some (RedisModule_Call3 1 "hset" "k" "f" "v") /\
  ~ (length ["k"; "f"; "v"] <= 2)%nat.
Proof.
  split; [reflexivity | simpl; lia].
Qed.

(** ** Further properties of the shims *)

(** The account refuses a release of a reply that is not held, a second
    release and a look into a released reply. *)
Example holdings_rejects :
  holdings [Entry (RedisModule_FreeCallReply 5) tt] [] = None /\
  holdings [Entry (RedisModule_Call 1 "get" "c" [VCStr "k"]) 5;
            Entry (RedisModule_FreeCallReply 5) tt;
            Entry (RedisModule_FreeCallReply 5) tt] [] = None /\
  holdings [Entry (RedisModule_Call 1 "get" "c" [VCStr "k"]) 5;
            Entry (RedisModule_FreeCallReply 5) tt;
            Entry (RedisModule_CallReplyType 5) 2] [] = None.
Proof.
  repeat split.
Qed.

(** X1.  Whatever the API answers, the integer accessor looks into the
    reply only while it holds it, releases it once and returns holding
    nothing: no use after release, no second release, no reply left
    behind, and no handle released that it did not obtain itself. *)
Theorem ReplyInteger_holds_nothing {hdr : redismodule_h} (W : Type)
    (h : handler W) (w : W) (ctx : ptr) (cmdname key arg0 : cstr) :
  holdings
    (trace (run h (RedisModuleCallable2_ReplyInteger ctx cmdname key arg0) w))
    []
  = Some [].
Proof.
  destruct (ReplyInteger_paths h w ctx cmdname key arg0)
    as (r & t & [(_ & _ & Htr) | (_ & Htr)]);
    rewrite Htr; unfold holdings, entry_hold, held_in; simpl;
    repeat (rewrite Z.eqb_refl; simpl); reflexivity.
Qed.

(** X2.  Each forwarding shim returns holding exactly one reply, the one
    it returns: the reply is not released on the way, and releasing it
    is left to the caller. *)
Theorem forwarding_hands_over_reply (W : Type) (h : handler W) (w : W)
    (ctx : ptr) (cmdname key arg0 arg1 : cstr) :
  (let o := run h (RedisModule_Call1 ctx cmdname key) w in
   holdings (trace o) [] = Some [result o] /\ frees (trace o) = []) /\
  (let o := run h (RedisModule_Call2 ctx cmdname key arg0) w in
   holdings (trace o) [] = Some [result o] /\ frees (trace o) = []) /\
  (let o := run h (RedisModule_Call3 ctx cmdname key arg0 arg1) w in
   holdings (trace o) [] = Some [result o] /\ frees (trace o) = []) /\
  (let o := run h (RedisModule_CallKeys ctx arg0) w in
   holdings (trace o) [] = Some [result o] /\ frees (trace o) = []) /\
  (let o := run h (RedisModule_Callable2 ctx cmdname key arg0) w in
   holdings (trace o) [] = Some [result o] /\ frees (trace o) = []).
Proof.
  unfold RedisModule_Call1, RedisModule_Call2, RedisModule_Call3,
    RedisModule_CallKeys, RedisModule_Callable2.
  repeat split; cbv zeta; rewrite forward_run; reflexivity.
Qed.

(** X3.  The accessor asks for the integer payload only of a reply whose
    type was reported as [REDISMODULE_REPLY_INTEGER], and only of the
    reply its own call produced. *)
Theorem ReplyInteger_reads_integers_only {hdr : redismodule_h} (W : Type)
    (h : handler W) (w : W) (ctx : ptr) (cmdname key arg0 : cstr)
    (r : ptr) (v : Z) :
  let o := run h (RedisModuleCallable2_ReplyInteger ctx cmdname key arg0) w in
  In (r, v) (reply_integers (trace o)) ->
  reply_types (trace o) = [(r, REDISMODULE_REPLY_INTEGER)] /\
  call_replies (trace o) = [r] /\
  result o = v.
Proof.
  intros o.
  pose proof (ReplyInteger_paths h w ctx cmdname key arg0) as P.
  fold o in P. clearbody o.
  destruct P as (resp & ty & [(_ & _ & Htr) | (Heq & Htr)]);
    rewrite Htr; simpl; intros Hin.
  - destruct Hin.
  - destruct Hin as [Hin | []]. injection Hin as Hr Hv.
    subst resp ty. repeat split. exact Hv.
Qed.

Lemma ReplyInteger_reads_integers_only_witness :
  let o := run serve
             (@RedisModuleCallable2_ReplyInteger redis_sdk 1 "llen" "k" "a")
             (replying 77 2 12) in
  reply_types (trace o) = [(77, 2)] /\ call_replies (trace o) = [77] /\
  result o = 12.
Proof.
  apply (@ReplyInteger_reads_integers_only redis_sdk server serve
           (replying 77 2 12) 1 "llen" "k" "a" 77 12).
  simpl. left. reflexivity.
Defined.

(** X4.  A result other than -1 is never the failure value: the reply
    was of integer type and the result is the payload reported for it. *)
Theorem ReplyInteger_result_not_sentinel {hdr : redismodule_h} (W : Type)
    (h : handler W) (w : W) (ctx : ptr) (cmdname key arg0 : cstr) :
  let o := run h (RedisModuleCallable2_ReplyInteger ctx cmdname key arg0) w in
  result o <> -1 ->
  exists resp : ptr,
    call_replies (trace o) = [resp] /\
    reply_types (trace o) = [(resp, REDISMODULE_REPLY_INTEGER)] /\
    reply_integers (trace o) = [(resp, result o)].
Proof.
  intros o.
  pose proof (ReplyInteger_paths h w ctx cmdname key arg0) as P.
  fold o in P. clearbody o.
  destruct P as (resp & ty & [(_ & Hres & _) | (Heq & Htr)]); intros Hne.
  - contradiction.
  - exists resp. rewrite Htr. subst ty. simpl. repeat split.
Qed.

Lemma ReplyInteger_result_not_sentinel_witness :
  let o := run serve
             (@RedisModuleCallable2_ReplyInteger redis_sdk 1 "llen" "k" "a")
             (replying 77 2 12) in
  exists resp : ptr,
    call_replies (trace o) = [resp] /\
    reply_types (trace o) = [(resp, 2)] /\
    reply_integers (trace o) = [(resp, result o)].
Proof.
  apply (@ReplyInteger_result_not_sentinel redis_sdk server serve
           (replying 77 2 12) 1 "llen" "k" "a").
  simpl. discriminate.
Defined.

(** X5.  The accessor starts as [RedisModule_Call2] on the same arguments
    does: its log begins with the log of that call, the reply it works
    on is the one [RedisModule_Call2] would return, and the next thing it
    does, in the state that call left, is to ask for the type of that
    reply. *)
Theorem ReplyInteger_extends_Call2 {hdr : redismodule_h} (W : Type)
    (h : handler W) (w : W) (ctx : ptr) (cmdname key arg0 : cstr) :
  let o2 := run h (RedisModule_Call2 ctx cmdname key arg0) w in
  let o := run h (RedisModuleCallable2_ReplyInteger ctx cmdname key arg0) w in
  call_replies (trace o) = [result o2] /\
  frees (trace o) = [result o2] /\
  exists t : list entry,
    trace o
    = (trace o2
       ++ Entry (RedisModule_CallReplyType (result o2))
            (fst (h _ (RedisModule_CallReplyType (result o2)) (world o2)))
       :: t)%list.
Proof.
  unfold RedisModuleCallable2_ReplyInteger, RedisModule_Callable2,
    RedisModule_Call2, call.
  simpl. answer h. simpl. answer h. simpl.
  destruct (negb (x0 =? REDISMODULE_REPLY_INTEGER)); simpl.
  - answer h. simpl. repeat split. eexists. reflexivity.
  - answer h. simpl. answer h. simpl. repeat split. eexists. reflexivity.
Qed.

(** X6.  [RedisModuleHash_Get] never initialises [oldval]: the pointer it
    returns is determinate exactly when [RedisModule_HashGet] stored one
    through the out-pointer; after a call that stored nothing the caller
    receives an indeterminate pointer, whatever the status was. *)
Theorem Hash_Get_indeterminate {hdr : redismodule_h} (W : Type)
    (h : handler W) (w : W) (key field : ptr) :
  let o := run h (RedisModuleHash_Get key field) w in
  exists (status : Z) (st : stores),
    hash_answers (trace o) = [(status, st)] /\
    (result o = None <-> st = []).
Proof.
  intros o.
  pose proof (Hash_Get_run h key field w) as P.
  fold o in P. clearbody o.
  destruct P as (status & st & Htr & Hres).
  exists status, st. rewrite Htr, Hres. split; [reflexivity |].
  split.
  - destruct st as [| [[] p] st]; [reflexivity |].
    simpl. destruct (load st oldval); discriminate.
  - intros Hst. subst st. reflexivity.
Qed.
